(** * zudoku-backend: the session registry and relay of [main.go]

    [main.go] keeps one process-wide map [sessions] from a game id to the
    slice of websocket connections joined to it, guarded by the mutex [mu].
    Every access to the map happens inside a [mu.Lock()] ... [mu.Unlock()]
    region, so each such region is one atomic transition of the server
    state; the regions are embedded here as functions on that state.

    The websocket transport (gorilla/websocket) is an external collaborator.
    It is kept abstract behind the class [Transport]: its state is opaque and
    the outcome of every write is whatever the transport answers.  What the
    server asks of the transport is recorded, call by call, in a trace. *)

From Stdlib Require Import ZArith Strings.Byte.
From stdpp Require Import base option list gmap strings fin_maps.

Local Open Scope string_scope.
Local Open Scope list_scope.

(** ** Constants of the libraries [main.go] imports *)

Module websocket.
(** Message types of gorilla/websocket (the RFC 6455 opcodes). *)
Definition TextMessage : Z := 1.
Definition CloseMessage : Z := 8.
(** Close codes. *)
Definition CloseNormalClosure : Z := 1000.
Definition CloseNoStatusReceived : Z := 1005.

Definition byte_of_Z (z : Z) : byte :=
  default x00 (Byte.of_N (Z.to_N (z mod 256))).

(** [FormatCloseMessage]: the close code as two big-endian bytes followed
    by the text; the empty payload for [CloseNoStatusReceived]. *)
Definition FormatCloseMessage (closeCode : Z) (text : string) : list byte :=
  if decide (closeCode = CloseNoStatusReceived) then []
  else byte_of_Z (closeCode / 256) :: byte_of_Z closeCode
         :: String.list_byte_of_string text.
End websocket.

Module http.
Definition StatusOK : Z := 200.
Definition StatusBadRequest : Z := 400.
Definition StatusNotFound : Z := 404.
End http.

(** ** Data model *)

(** A [*websocket.Conn]: a pointer, compared by identity ([c == conn]). *)
Definition Conn := positive.

(** The lines [main.go] writes with [log.Println]/[log.Printf].  The text of
    an [error] value belongs to the transport and is not recorded. *)
Inductive LogLine :=
| LogHostUpgradeError
| LogJoinUpgradeError
| LogHostConnected (id : string)
| LogPlayerJoined (id : string)
| LogReadError
| LogMessage (sessionID : string) (msg : list byte)
| LogWriteError
| LogSessionClosed (id : string).

(** What the server does to the outside world, in program order. *)
Inductive Event :=
| EvWrite (conn : Conn) (messageType : Z) (data : list byte) (err : bool)
| EvClose (conn : Conn)
| EvLog (line : LogLine).

(** The connection abstraction: [conn.WriteMessage(messageType, data)]
    answers [true] when it returns a non-nil error; [conn.Close()] returns
    an error [main.go] never looks at. *)
Class Transport (T : Type) := {
  Conn_WriteMessage : Conn -> Z -> list byte -> T -> bool * T;
  Conn_Close : Conn -> T -> T
}.

(** The server state: the global [sessions], the transport, the trace. *)
Record Server (T : Type) := mkServer {
  sessions : gmap string (list Conn);
  wire : T;
  trace : list Event
}.
Arguments mkServer {T} _ _ _.
Arguments sessions {T} _.
Arguments wire {T} _.
Arguments trace {T} _.

(** What an HTTP handler leaves on its [http.ResponseWriter]. *)
Inductive Response :=
| HttpError (msg : string) (code : Z)      (* http.Error(w, msg, code) *)
| HttpWrite (code : Z) (body : string)     (* w.WriteHeader; w.Write *)
| Upgraded                                 (* the connection was hijacked *)
| UpgradeFailed.                           (* the upgrader answered itself *)

(** One [conn.ReadMessage()] of the receive loop. *)
Inductive ReadResult :=
| ReadOk (messageType : Z) (msg : list byte)
| ReadErr.

(** Where [handleMessages] stands when its input so far is used up. *)
Inductive Driver := Blocked | Returned.

(** Go's [sessions[id]]: the zero value (the nil slice) for a missing key. *)
Definition index (m : gmap string (list Conn)) (id : string) : list Conn :=
  default [] (m !! id).

(** Go's slice expressions [s[:hi]] and [s[lo:]]; [None] is the run-time
    panic of an index out of range (bounds taken against [len s], which
    panics at least as often as Go's check against the capacity). *)
Definition slice_to (s : list Conn) (hi : nat) : option (list Conn) :=
  if decide (hi <= length s) then Some (take hi s) else None.

Definition slice_from (s : list Conn) (lo : nat) : option (list Conn) :=
  if decide (lo <= length s) then Some (drop lo s) else None.

(** ** The operations of [main.go] *)

Section Server.
Context {T : Type} `{Transport T}.

Definition emit (e : Event) (st : Server T) : Server T :=
  mkServer (sessions st) (wire st) (trace st ++ [e]).

Definition log_Println (line : LogLine) (st : Server T) : Server T :=
  emit (EvLog line) st.

Definition set_sessions (m : gmap string (list Conn)) (st : Server T)
  : Server T :=
  mkServer m (wire st) (trace st).

Definition WriteMessage (conn : Conn) (messageType : Z) (data : list byte)
    (st : Server T) : bool * Server T :=
  let r := Conn_WriteMessage conn messageType data (wire st) in
  (r.1, mkServer (sessions st) r.2
          (trace st ++ [EvWrite conn messageType data r.1])).

Definition Close (conn : Conn) (st : Server T) : Server T :=
  mkServer (sessions st) (Conn_Close conn (wire st))
           (trace st ++ [EvClose conn]).

(** The critical section of [handleHost] (l.37-39) and of [handleJoin]
    (l.59-61): [sessions[id] = append(sessions[id], conn)]. *)
Definition join (id : string) (conn : Conn) (st : Server T) : Server T :=
  set_sessions (<[id := index (sessions st) id ++ [conn]]> (sessions st)) st.

(** [broadcastMessage], l.87-96.  The range expression is evaluated once;
    a failed write is logged and the loop goes on. *)
Fixpoint broadcast_range (conns : list Conn) (message : list byte)
    (st : Server T) : Server T :=
  match conns with
  | [] => st
  | conn :: rest =>
      let r := WriteMessage conn websocket.TextMessage message st in
      broadcast_range rest message
        (if r.1 then log_Println LogWriteError r.2 else r.2)
  end.

Definition broadcastMessage (sessionID : string) (message : list byte)
    (st : Server T) : Server T :=
  broadcast_range (index (sessions st) sessionID) message st.

(** [removeConnection], l.99-110.  [rest] is what the range loop has still
    to visit, [i] the index of its head in [conns].  At the first [c] equal
    to [conn] the entry is overwritten with
    [append(conns[:i], conns[i+1:]...)] and the loop breaks.  [None] is a
    panic of a slice expression.  The append shifts the tail inside the
    backing array of [conns]; the only slice header kept afterwards is the
    one stored back into the map, so the list stored is all there is. *)
Fixpoint removeConnection_range (sessionID : string) (conn : Conn)
    (conns : list Conn) (i : nat) (rest : list Conn) (st : Server T)
    : option (Server T) :=
  match rest with
  | [] => Some st
  | c :: rest' =>
      if decide (c = conn) then
        match slice_to conns i, slice_from conns (i + 1) with
        | Some front, Some back =>
            Some (set_sessions
                    (<[sessionID := front ++ back]> (sessions st)) st)
        | _, _ => None
        end
      else removeConnection_range sessionID conn conns (S i) rest' st
  end.

Definition removeConnection (sessionID : string) (conn : Conn)
    (st : Server T) : option (Server T) :=
  let conns := index (sessions st) sessionID in
  removeConnection_range sessionID conn conns 0 conns st.

(** [handleMessages], l.68-84, run on the results its successive
    [conn.ReadMessage()] calls give.  The message type read is dropped
    ([_, msg, err :=]).  The deferred function runs when the loop breaks. *)
Definition handleMessages_deferred (conn : Conn) (sessionID : string)
    (st : Server T) : option (Server T) :=
  removeConnection sessionID conn (Close conn st).

Definition handleMessages_recv (sessionID : string) (msg : list byte)
    (st : Server T) : Server T :=
  broadcastMessage sessionID msg (log_Println (LogMessage sessionID msg) st).

Fixpoint handleMessages (reads : list ReadResult) (conn : Conn)
    (sessionID : string) (st : Server T) : option (Driver * Server T) :=
  match reads with
  | [] => Some (Blocked, st)
  | ReadOk _ msg :: reads' =>
      handleMessages reads' conn sessionID
        (handleMessages_recv sessionID msg st)
  | ReadErr :: _ =>
      match handleMessages_deferred conn sessionID
              (log_Println LogReadError st) with
      | Some st' => Some (Returned, st')
      | None => None
      end
  end.

(** [handleHost], l.24-43, and [handleJoin], l.46-65.  [upgrade] is what
    [upgrader.Upgrade] gives: a fresh connection, or a failure. *)
Definition handleHost (id : string) (upgrade : option Conn)
    (reads : list ReadResult) (st : Server T)
    : option (Response * Driver * Server T) :=
  if decide (id = "") then
    Some (HttpError "Missing game ID" http.StatusBadRequest, Returned, st)
  else
    match upgrade with
    | None => Some (UpgradeFailed, Returned,
                    log_Println LogHostUpgradeError st)
    | Some conn =>
        match handleMessages reads conn id
                (log_Println (LogHostConnected id) (join id conn st)) with
        | Some (d, st') => Some (Upgraded, d, st')
        | None => None
        end
    end.

Definition handleJoin (id : string) (upgrade : option Conn)
    (reads : list ReadResult) (st : Server T)
    : option (Response * Driver * Server T) :=
  if decide (id = "") then
    Some (HttpError "Missing game ID" http.StatusBadRequest, Returned, st)
  else
    match upgrade with
    | None => Some (UpgradeFailed, Returned,
                    log_Println LogJoinUpgradeError st)
    | Some conn =>
        match handleMessages reads conn id
                (log_Println (LogPlayerJoined id) (join id conn st)) with
        | Some (d, st') => Some (Upgraded, d, st')
        | None => None
        end
    end.

(** [handleClose], l.112-135.  [closeSession] is its critical section
    (l.119-134), entered once the id is known to be non-empty. *)
Definition close_payload : list byte :=
  websocket.FormatCloseMessage websocket.CloseNormalClosure "Game closed".

Fixpoint handleClose_range (conns : list Conn) (st : Server T) : Server T :=
  match conns with
  | [] => st
  | conn :: rest =>
      handleClose_range rest
        (Close conn
           (WriteMessage conn websocket.CloseMessage close_payload st).2)
  end.

Definition closeSession (id : string) (st : Server T)
    : Response * Server T :=
  match sessions st !! id with
  | Some conns =>
      let st1 := handleClose_range conns st in
      (HttpWrite http.StatusOK "Game closed",
       log_Println (LogSessionClosed id)
         (set_sessions (delete id (sessions st1)) st1))
  | None => (HttpError "Session not found" http.StatusNotFound, st)
  end.

Definition handleClose (id : string) (st : Server T)
    : Response * Server T :=
  if decide (id = "") then
    (HttpError "Missing game ID" http.StatusBadRequest, st)
  else closeSession id st.

(** Joins of the connections [cs] into [id], one after the other. *)
Definition joins (id : string) (cs : list Conn) (st : Server T) : Server T :=
  foldl (fun s c => join id c s) st cs.

(** The outcome the caller of [/close] sees: 200 or not. *)
Definition found (r : Response) : bool :=
  match r with
  | HttpWrite code _ => bool_decide (code = http.StatusOK)
  | _ => false
  end.

End Server.

(** ** Reading a trace *)

(** The calls made on connections, outcome and log lines left out. *)
Inductive Call :=
| CallWrite (conn : Conn) (messageType : Z) (data : list byte)
| CallClose (conn : Conn).

Definition call_of (e : Event) : option Call :=
  match e with
  | EvWrite conn messageType data _ => Some (CallWrite conn messageType data)
  | EvClose conn => Some (CallClose conn)
  | EvLog _ => None
  end.

Definition calls (evs : list Event) : list Call := omap call_of evs.

#[global] Instance byte_eq_dec : EqDecision byte := Byte.byte_eq_dec.

#[global] Instance Call_eq_dec : EqDecision Call.
Proof. solve_decision. Defined.

(** How many times [call] is made in [evs]. *)
Definition times (call : Call) (evs : list Event) : nat :=
  length (filter (fun c => c = call) (calls evs)).

(** The failed writes of a trace. *)
Definition failed_write (e : Event) : bool :=
  match e with EvWrite _ _ _ err => err | _ => false end.

(** How many times [conn] occurs in a collection. *)
Definition occurrences (conn : Conn) (conns : list Conn) : nat :=
  length (filter (fun c => c = conn) conns).

(** The calls one broadcast of [message] owes to the members [conns]:
    one text write each, in the order of the collection. *)
Definition relay (message : list byte) (conns : list Conn) : list Call :=
  map (fun c => CallWrite c websocket.TextMessage message) conns.

(** The calls closing a session owes to its members: the close frame, then
    the close of the transport, member by member. *)
Definition farewell (payload : list byte) (conns : list Conn) : list Call :=
  flat_map (fun c => [CallWrite c websocket.CloseMessage payload; CallClose c])
           conns.

(** ** A transport to run the server on

    Its state lists the connections whose writes fail; closing a connection
    adds it to the list. *)
Module Flaky.
Definition t := list Conn.

#[global] Instance transport : Transport t := {
  Conn_WriteMessage conn _ _ down := (bool_decide (conn ∈ down), down);
  Conn_Close conn down := conn :: down
}.

(** A server with the given sessions, nothing sent yet. *)
Definition server (down : list Conn) (l : list (string * list Conn))
  : Server t :=
  mkServer (list_to_map l) down [].

Definition ping : list byte := String.list_byte_of_string "ping".

Definition c1 : Conn := 1%positive.
Definition c2 : Conn := 2%positive.
Definition c3 : Conn := 3%positive.
End Flaky.

(** ** The server as a transition system

    What one goroutine does while it holds [mu], or one call it makes on
    the transport or the logger outside of it, is one step; goroutines
    interleave step by step.  [upgrader.Upgrade] allocates the connection it
    returns, so a joining connection is none of those the map still holds. *)

Section System.
Context {T : Type} `{Transport T}.

Definition registered (st : Server T) (conn : Conn) : Prop :=
  exists id, conn ∈ index (sessions st) id.

Inductive step : Server T -> Server T -> Prop :=
| step_join id conn st :
    id <> "" -> ~ registered st conn -> step st (join id conn st)
| step_log line st :
    step st (log_Println line st)
| step_broadcast sessionID message st :
    step st (broadcastMessage sessionID message st)
| step_Close conn st :
    step st (Close conn st)
| step_remove sessionID conn st st' :
    removeConnection sessionID conn st = Some st' -> step st st'
| step_handleClose id st :
    step st (handleClose id st).2.

Definition reachable (st : Server T) : Prop :=
  exists st0, sessions st0 = ∅ /\ rtc step st0 st.

(** The shape of the registry the server keeps: no entry under the empty
    id, no connection twice in a collection, none in two collections. *)
Record registry_ok (st : Server T) : Prop := {
  ok_id : sessions st !! "" = None;
  ok_NoDup : forall id, NoDup (index (sessions st) id);
  ok_one_session : forall id1 id2 conn,
    conn ∈ index (sessions st) id1 ->
    conn ∈ index (sessions st) id2 -> id1 = id2
}.

End System.

(** ** Runs of the receive loop and what they leave *)

(** The reads of a receive loop that succeed: each message with the type it
    came with. *)
Definition received (msgs : list (Z * list byte)) : list ReadResult :=
  map (fun m => ReadOk m.1 m.2) msgs.

(** The calls relaying [msgs], in order, owes to the members [conns]. *)
Definition relays (msgs : list (Z * list byte)) (conns : list Conn)
  : list Call :=
  flat_map (fun m => relay m.2 conns) msgs.

(** The connection a call is made on. *)
Definition target (call : Call) : Conn :=
  match call with
  | CallWrite conn _ _ => conn
  | CallClose conn => conn
  end.

(** The events of one broadcast whose writes had the given outcomes: after
    each failed write, the line that logs it. *)
Definition broadcast_events (message : list byte)
    (outcomes : list (Conn * bool)) : list Event :=
  flat_map (fun o => EvWrite o.1 websocket.TextMessage message o.2
                       :: (if o.2 then [EvLog LogWriteError] else []))
           outcomes.

(** [st] with the events [pre] put before its trace. *)
Definition prepend {T : Type} (pre : list Event) (st : Server T) : Server T :=
  mkServer (sessions st) (wire st) (pre ++ trace st).

(** What a run of [handleHost] or [handleJoin] shows apart from its log
    lines: the response, where the loop stands, the registry, the transport
    and the calls made on connections. *)
Definition observe {T : Type} (r : Response * Driver * Server T)
  : Response * Driver * gmap string (list Conn) * T * list Call :=
  (r.1.1, r.1.2, sessions r.2, wire r.2, calls (trace r.2)).

(** Two sessions of one member each, joined from the empty registry. *)
Definition two_sessions : Server Flaky.t :=
  join "b" Flaky.c2 (join "a" Flaky.c1 (Flaky.server [] [])).

(** ** Collections and traces *)

Lemma calls_app (a b : list Event) : calls (a ++ b) = calls a ++ calls b.
Proof. apply omap_app. Qed.

Lemma occurrences_cons (conn c : Conn) (l : list Conn) :
  occurrences conn (c :: l) =
  if decide (c = conn) then S (occurrences conn l) else occurrences conn l.
Proof.
  unfold occurrences. rewrite filter_cons. by destruct (decide (c = conn)).
Qed.

Lemma occurrences_app (conn : Conn) (l1 l2 : list Conn) :
  occurrences conn (l1 ++ l2) = occurrences conn l1 + occurrences conn l2.
Proof. unfold occurrences. by rewrite filter_app, length_app. Qed.

Lemma occurrences_absent (conn : Conn) (l : list Conn) :
  conn ∉ l <-> occurrences conn l = 0.
Proof.
  induction l as [|c l IH]; [split; [done | intros _; apply not_elem_of_nil]|].
  rewrite occurrences_cons, not_elem_of_cons.
  destruct (decide (c = conn)) as [->|Hne].
  - split; [intros [? _]; done | discriminate].
  - rewrite <- IH. split; [by intros [_ ?] | intros ?; split; [congruence | done]].
Qed.

Lemma occurrences_NoDup (conn : Conn) (l : list Conn) :
  NoDup l -> conn ∈ l -> occurrences conn l = 1.
Proof.
  induction 1 as [|c l Hc Hl IH]; [by intros ?%elem_of_nil|].
  rewrite occurrences_cons. intros [->|Hin]%elem_of_cons.
  - rewrite decide_True by done. f_equal. by apply occurrences_absent.
  - rewrite decide_False by (intros ->; done). auto.
Qed.

Lemma times_relay (c : Conn) (message : list byte) (conns : list Conn)
    (evs : list Event) :
  calls evs = relay message conns ->
  times (CallWrite c websocket.TextMessage message) evs = occurrences c conns.
Proof.
  unfold times. intros ->. unfold relay.
  induction conns as [|c' conns IH]; [done|].
  rewrite occurrences_cons. cbn [map]. rewrite filter_cons.
  destruct (decide (c' = c)) as [->|Hne].
  - rewrite decide_True by done. simpl. by rewrite IH.
  - rewrite decide_False by congruence. done.
Qed.

(** ** Broadcast *)

Section Broadcast.
Context {T : Type} `{Transport T}.
Implicit Types (st : Server T) (conns : list Conn) (message : list byte).

Lemma broadcast_range_app l1 l2 message st :
  broadcast_range (l1 ++ l2) message st =
  broadcast_range l2 message (broadcast_range l1 message st).
Proof. revert st. induction l1 as [|c l1 IH]; intros st; simpl; auto. Qed.

Lemma broadcast_range_sessions conns message st :
  sessions (broadcast_range conns message st) = sessions st.
Proof.
  revert st. induction conns as [|c conns IH]; intros st; simpl; [done|].
  rewrite IH. by destruct (Conn_WriteMessage _ _ _ _).1.
Qed.

(** Whatever the transport answers, the loop writes to every member, in
    order; the only other events are the lines logging failed writes. *)
Lemma broadcast_range_trace conns message st :
  exists evs,
    trace (broadcast_range conns message st) = trace st ++ evs /\
    calls evs = relay message conns.
Proof.
  revert st. induction conns as [|c conns IH]; intros st; simpl.
  - exists []. by rewrite app_nil_r.
  - match goal with |- context [broadcast_range conns message ?s] =>
      destruct (IH s) as (evs & -> & Hevs) end.
    destruct (Conn_WriteMessage c websocket.TextMessage message (wire st)).1;
      simpl; rewrite <- !app_assoc;
      eexists; (split; [reflexivity|]); simpl; by rewrite Hevs.
Qed.

(** A broadcast in which no write fails leaves nothing but the writes. *)
Lemma broadcast_range_failures conns message st :
  exists evs,
    trace (broadcast_range conns message st) = trace st ++ evs /\
    (Forall (fun e => failed_write e = false) evs ->
     Forall (fun e => exists c, e = EvWrite c websocket.TextMessage message false)
            evs).
Proof.
  revert st. induction conns as [|c conns IH]; intros st; simpl.
  - exists []. by rewrite app_nil_r.
  - match goal with |- context [broadcast_range conns message ?s] =>
      destruct (IH s) as (evs & -> & Hevs) end.
    destruct (Conn_WriteMessage c websocket.TextMessage message (wire st)).1
      eqn:E; simpl; rewrite <- !app_assoc;
      eexists; (split; [reflexivity|]); simpl.
    + intros Hf. apply Forall_cons in Hf as [Hf _]. discriminate.
    + intros Hf. apply Forall_cons in Hf as [_ Hf].
      apply Forall_cons. split; [by eexists | auto].
Qed.

(** C10: a broadcast leaves the [sessions] map, and so every collection in
    it, as it found them, whether or not writes fail. *)
Theorem broadcastMessage_sessions sessionID message st :
  sessions (broadcastMessage sessionID message st) = sessions st.
Proof. apply broadcast_range_sessions. Qed.

(** C8: a broadcast to a session id with no entry returns the state it was
    given: no write, no log line, no change of the registry; and the
    function has no failing outcome. *)
Theorem broadcastMessage_absent sessionID message st :
  sessions st !! sessionID = None ->
  broadcastMessage sessionID message st = st.
Proof.
  intros Hnone. unfold broadcastMessage, index. by rewrite Hnone.
Qed.

Lemma join_index id conn st :
  index (sessions (join id conn st)) id = index (sessions st) id ++ [conn].
Proof. unfold join, index at 1. simpl. by rewrite lookup_insert_eq. Qed.

Lemma joins_index id cs st :
  index (sessions (joins id cs st)) id = index (sessions st) id ++ cs.
Proof.
  unfold joins. revert st. induction cs as [|c cs IH]; intros st; simpl.
  - by rewrite app_nil_r.
  - rewrite IH, join_index. by rewrite <- app_assoc.
Qed.

Lemma joins_lookup id cs st :
  cs <> [] ->
  sessions (joins id cs st) !! id = Some (index (sessions st) id ++ cs).
Proof.
  intros Hcs. pose proof (joins_index id cs st) as Hidx.
  unfold index at 1 in Hidx.
  destruct (sessions (joins id cs st) !! id) as [l|]; simpl in Hidx.
  - by rewrite Hidx.
  - symmetry in Hidx. apply app_eq_nil in Hidx as [_ ?]. done.
Qed.

(** C1: after joins of pairwise distinct connections [cs] into a session
    that had no entry, the collection of the session is [cs], of that
    length, and a broadcast writes the message to the connections of [cs]
    and to no other, once each. *)
Theorem joins_then_broadcast id cs message st :
  sessions st !! id = None ->
  NoDup cs ->
  let st' := joins id cs st in
  index (sessions st') id = cs /\
  (cs <> [] -> sessions st' !! id = Some cs) /\
  length (index (sessions st') id) = length cs /\
  exists evs,
    trace (broadcastMessage id message st') = trace st' ++ evs /\
    calls evs = relay message cs /\
    (forall c, c ∈ cs ->
       times (CallWrite c websocket.TextMessage message) evs = 1) /\
    (forall call, call ∈ calls evs ->
       exists c, c ∈ cs /\ call = CallWrite c websocket.TextMessage message).
Proof.
  intros Hnone Hnd st'.
  assert (Hidx : index (sessions st') id = cs).
  { unfold st'. rewrite joins_index. unfold index. by rewrite Hnone. }
  split; [done|]. split.
  { intros Hcs. unfold st'. rewrite joins_lookup by done.
    unfold index. by rewrite Hnone. }
  split; [by rewrite Hidx|].
  unfold broadcastMessage. rewrite Hidx.
  destruct (broadcast_range_trace cs message st') as (evs & Htr & Hcalls).
  exists evs. split; [done|]. split; [done|]. split.
  - intros c Hc. rewrite (times_relay _ _ cs) by done.
    by apply occurrences_NoDup.
  - intros call. rewrite Hcalls. unfold relay.
    intros (c & -> & Hc)%list_elem_of_fmap. eauto.
Qed.

(** C2: when the write to a member [c] fails during a broadcast, the
    failure is logged, every member after [c] in the collection is still
    written to in the same call, and [c] stays in the collection. *)
Theorem broadcast_failure_isolated sessionID message st front c back :
  sessions st !! sessionID = Some (front ++ c :: back) ->
  (Conn_WriteMessage c websocket.TextMessage message
     (wire (broadcast_range front message st))).1 = true ->
  let st' := broadcastMessage sessionID message st in
  exists evs1 evs2,
    trace st' =
      trace st ++ evs1
        ++ [EvWrite c websocket.TextMessage message true; EvLog LogWriteError]
        ++ evs2 /\
    calls evs1 = relay message front /\
    calls evs2 = relay message back /\
    sessions st' !! sessionID = Some (front ++ c :: back).
Proof.
  intros Hconns Hfail st'. unfold st', broadcastMessage, index.
  rewrite Hconns. simpl default. rewrite broadcast_range_app.
  destruct (broadcast_range_trace front message st) as (evs1 & Htr1 & Hc1).
  cbn [broadcast_range]. unfold WriteMessage. cbn [fst snd].
  rewrite Hfail.
  match goal with |- context [broadcast_range back message ?s] =>
    destruct (broadcast_range_trace back message s) as (evs2 & Htr2 & Hc2);
    pose proof (broadcast_range_sessions back message s) as Hs2 end.
  exists evs1, evs2. split; [|split; [done|split; [done|]]].
  - rewrite Htr2. simpl. rewrite Htr1. by rewrite <- !app_assoc.
  - rewrite Hs2. simpl. by rewrite broadcast_range_sessions.
Qed.


End Broadcast.

Import Flaky.

Lemma broadcastMessage_absent_witness :
  sessions (server [] [("abc", [c1; c2])]) !! "xyz" = None /\
  broadcastMessage "xyz" ping (server [] [("abc", [c1; c2])])
  = server [] [("abc", [c1; c2])].
Proof.
  split; [reflexivity|]. apply broadcastMessage_absent. reflexivity.
Defined.

(** The scenario of joins and a ping: both members get the ping once, the
    sender included. *)
Lemma joins_then_broadcast_witness :
  sessions (server [] []) !! "abc" = None /\
  NoDup [c1; c2] /\
  sessions (joins "abc" [c1; c2] (server [] [])) !! "abc" = Some [c1; c2] /\
  trace (broadcastMessage "abc" ping (joins "abc" [c1; c2] (server [] []))) =
    [EvWrite c1 websocket.TextMessage ping false;
     EvWrite c2 websocket.TextMessage ping false].
Proof.
  assert (Hnone : sessions (server [] []) !! "abc" = None) by reflexivity.
  assert (Hnd : NoDup [c1; c2]) by (by apply (bool_decide_unpack _)).
  split; [done|]. split; [done|].
  destruct (joins_then_broadcast "abc" [c1; c2] ping (server [] []) Hnone Hnd)
    as (_ & Hsome & _ & _).
  split; [by apply Hsome | reflexivity].
Defined.

(** A broadcast to [c1; c2; c3] while the transport of [c2] is down. *)
Lemma broadcast_failure_isolated_witness :
  exists evs1 evs2,
    trace (broadcastMessage "abc" ping (server [c2] [("abc", [c1; c2; c3])])) =
      [] ++ evs1
        ++ [EvWrite c2 websocket.TextMessage ping true; EvLog LogWriteError]
        ++ evs2 /\
    calls evs1 = relay ping [c1] /\
    calls evs2 = relay ping [c3] /\
    sessions (broadcastMessage "abc" ping (server [c2] [("abc", [c1; c2; c3])]))
      !! "abc" = Some ([c1] ++ c2 :: [c3]).
Proof.
  apply (broadcast_failure_isolated "abc" ping
           (server [c2] [("abc", [c1; c2; c3])]) [c1] c2 [c3]);
    reflexivity.
Defined.

(** ** Leave *)

Lemma slice_to_front (front back : list Conn) :
  slice_to (front ++ back) (length front) = Some front.
Proof.
  unfold slice_to. rewrite decide_True by (rewrite length_app; lia).
  by rewrite take_app_length.
Qed.

Lemma slice_from_back (front : list Conn) (c : Conn) (back : list Conn) :
  slice_from (front ++ c :: back) (length front + 1) = Some back.
Proof.
  unfold slice_from.
  rewrite decide_True by (rewrite length_app; simpl; lia).
  rewrite cons_middle, app_assoc.
  by rewrite drop_app_length' by (rewrite length_app; simpl; lia).
Qed.

Section Leave.
Context {T : Type} `{Transport T}.
Implicit Types (st : Server T) (conns front back : list Conn).

Lemma removeConnection_range_absent sessionID conn conns i rest st :
  conn ∉ rest ->
  removeConnection_range sessionID conn conns i rest st = Some st.
Proof.
  revert i. induction rest as [|c rest IH]; intros i Hnot; simpl; [done|].
  apply not_elem_of_cons in Hnot as [Hne Hnot].
  rewrite decide_False by congruence. auto.
Qed.

(** The loop invariant: [pre] has been visited and holds no [conn]. *)
Lemma removeConnection_range_first sessionID conn pre mid back st :
  conn ∉ mid ->
  removeConnection_range sessionID conn (pre ++ mid ++ conn :: back)
    (length pre) (mid ++ conn :: back) st =
  Some (set_sessions (<[sessionID := (pre ++ mid) ++ back]> (sessions st)) st).
Proof.
  revert pre. induction mid as [|c mid IH]; intros pre Hnot; simpl.
  - rewrite decide_True by done.
    rewrite slice_to_front, slice_from_back. by rewrite app_nil_r.
  - apply not_elem_of_cons in Hnot as [Hne Hnot].
    rewrite decide_False by congruence.
    specialize (IH (pre ++ [c]) Hnot).
    rewrite length_app, Nat.add_1_r, <- !app_assoc in IH. cbn [app] in IH.
    rewrite <- app_assoc. exact IH.
Qed.

Lemma removeConnection_present sessionID conn st front back :
  index (sessions st) sessionID = front ++ conn :: back ->
  conn ∉ front ->
  removeConnection sessionID conn st =
  Some (set_sessions (<[sessionID := front ++ back]> (sessions st)) st).
Proof.
  intros Hidx Hnot. unfold removeConnection. rewrite Hidx.
  by apply (removeConnection_range_first sessionID conn [] front back st).
Qed.

Lemma removeConnection_absent sessionID conn st :
  conn ∉ index (sessions st) sessionID ->
  removeConnection sessionID conn st = Some st.
Proof. apply removeConnection_range_absent. Qed.

(** No slice expression of [removeConnection] is ever out of range. *)
Lemma removeConnection_total sessionID conn st :
  is_Some (removeConnection sessionID conn st).
Proof.
  destruct (decide (conn ∈ index (sessions st) sessionID)) as [Hin|Hnot].
  - apply list_elem_of_split_l in Hin as (front & back & Hidx & Hfront).
    by erewrite removeConnection_present.
  - by rewrite removeConnection_absent.
Qed.

Lemma index_insert sessionID conns (m : gmap string (list Conn)) :
  index (<[sessionID := conns]> m) sessionID = conns.
Proof. unfold index. by rewrite lookup_insert_eq. Qed.


(** C5: [removeConnection] never fails.  When the collection of the session
    holds [conn], with [front] the members before its first occurrence and
    [back] those after it, the collection becomes [front ++ back] and
    nothing else changes; when it does not hold [conn], the state is
    returned as it was. *)
Theorem removeConnection_first_occurrence sessionID conn st :
  is_Some (removeConnection sessionID conn st) /\
  (forall front back,
     index (sessions st) sessionID = front ++ conn :: back ->
     conn ∉ front ->
     exists st',
       removeConnection sessionID conn st = Some st' /\
       sessions st' !! sessionID = Some (front ++ back) /\
       (forall id, id <> sessionID -> sessions st' !! id = sessions st !! id) /\
       wire st' = wire st /\ trace st' = trace st) /\
  (conn ∉ index (sessions st) sessionID ->
   removeConnection sessionID conn st = Some st).
Proof.
  split; [apply removeConnection_total|]. split.
  - intros front back Hidx Hfront. eexists. split.
    + by apply removeConnection_present.
    + simpl. split; [by rewrite lookup_insert_eq|].
      split; [|done]. intros id Hne. by rewrite lookup_insert_ne.
  - apply removeConnection_absent.
Qed.


(** C7: [removeConnection] on a session that has an entry leaves the entry
    in the map: the keys of the map are the same after as before, and when
    the collection was [conn] alone the entry remains, holding the empty
    collection. *)
Theorem removeConnection_keeps_entry sessionID conn st conns :
  sessions st !! sessionID = Some conns ->
  exists st' conns',
    removeConnection sessionID conn st = Some st' /\
    sessions st' !! sessionID = Some conns' /\
    dom (sessions st') = dom (sessions st) /\
    (conns = [conn] -> conns' = []).
Proof.
  intros Hconns.
  assert (Hidx : index (sessions st) sessionID = conns)
    by (unfold index; by rewrite Hconns).
  destruct (decide (conn ∈ conns)) as [Hin|Hnot].
  - apply list_elem_of_split_l in Hin as (front & back & -> & Hfront).
    eexists _, (front ++ back). split; [by apply removeConnection_present|].
    simpl. split; [by rewrite lookup_insert_eq|]. split.
    + by apply dom_insert_lookup_L.
    + intros Heq. apply (f_equal length) in Heq.
      rewrite length_app in Heq. simpl in Heq.
      apply length_zero_iff_nil. rewrite length_app. lia.
  - exists st, conns. split; [apply removeConnection_absent; by rewrite Hidx|].
    split; [done|]. split; [done|].
    intros ->. exfalso. apply Hnot. apply list_elem_of_here.
Qed.

End Leave.

Lemma removeConnection_first_occurrence_witness :
  (exists st',
     removeConnection "abc" c1 (server [] [("abc", [c2; c1; c3; c1])])
       = Some st' /\
     sessions st' !! "abc" = Some ([c2] ++ [c3; c1])) /\
  removeConnection "abc" c3 (server [] [("abc", [c1; c2])])
    = Some (server [] [("abc", [c1; c2])]).
Proof.
  split.
  - destruct (removeConnection_first_occurrence "abc" c1
                (server [] [("abc", [c2; c1; c3; c1])])) as (_ & Hfirst & _).
    destruct (Hfirst [c2] [c3; c1]) as (st' & Hrm & Hlk & _).
    + reflexivity.
    + intros [Heq|Hin]%elem_of_cons; [discriminate | by apply elem_of_nil in Hin].
    + by exists st'.
  - apply removeConnection_first_occurrence.
    intros [Heq|[Heq|Hin]%elem_of_cons]%elem_of_cons;
      [discriminate | discriminate | by apply elem_of_nil in Hin].
Defined.



(** The last member leaves: the entry stays, empty. *)
Lemma removeConnection_keeps_entry_witness :
  sessions (server [] [("x", [c1])]) !! "x" = Some [c1] /\
  exists st' conns',
    removeConnection "x" c1 (server [] [("x", [c1])]) = Some st' /\
    sessions st' !! "x" = Some conns' /\
    dom (sessions st') = dom (sessions (server [] [("x", [c1])])) /\
    ([c1] = [c1] -> conns' = []).
Proof.
  split; [reflexivity|].
  apply (removeConnection_keeps_entry "x" c1 (server [] [("x", [c1])]) [c1]).
  reflexivity.
Defined.

(** ** Closing a session *)

Section CloseSession.
Context {T : Type} `{Transport T}.
Implicit Types (st : Server T) (conns : list Conn).

Lemma handleClose_range_sessions conns st :
  sessions (handleClose_range conns st) = sessions st.
Proof.
  revert st. induction conns as [|c conns IH]; intros st; simpl; [done|].
  by rewrite IH.
Qed.

(** Each member gets the close frame and then the close of its transport,
    whether or not the write of the frame failed; nothing is logged. *)
Lemma handleClose_range_trace conns st :
  exists evs,
    trace (handleClose_range conns st) = trace st ++ evs /\
    calls evs = farewell close_payload conns /\
    length evs = 2 * length conns.
Proof.
  revert st. induction conns as [|c conns IH]; intros st; simpl.
  - exists []. by rewrite app_nil_r.
  - match goal with |- context [handleClose_range conns ?s] =>
      destruct (IH s) as (evs & -> & Hcalls & Hlen) end.
    simpl. rewrite <- !app_assoc. eexists. split; [reflexivity|].
    simpl. rewrite Hcalls, Hlen. split; [done | lia].
Qed.

Lemma handleClose_nonempty id st :
  id <> "" -> handleClose id st = closeSession id st.
Proof. intros Hid. unfold handleClose. by rewrite decide_False. Qed.

Lemma handleClose_empty st :
  handleClose "" st =
  (HttpError "Missing game ID" http.StatusBadRequest, st).
Proof. done. Qed.


(** C3: closing a session that has an entry writes to each member, in
    order, a close frame carrying the code 1000 (normal closure) and the
    text "Game closed", closes the member's transport after its frame,
    deletes the entry and answers 200; closing a session that has no entry
    answers 404 and returns the state as it was.  A request with a non-empty
    id does just this. *)
Theorem closeSession_closes_members id st :
  (forall conns,
     sessions st !! id = Some conns ->
     exists evs,
       (closeSession id st).1 = HttpWrite http.StatusOK "Game closed" /\
       found (closeSession id st).1 = true /\
       sessions (closeSession id st).2 = delete id (sessions st) /\
       sessions (closeSession id st).2 !! id = None /\
       trace (closeSession id st).2 =
         trace st ++ evs ++ [EvLog (LogSessionClosed id)] /\
       calls evs = farewell close_payload conns) /\
  (sessions st !! id = None ->
   (closeSession id st).1 = HttpError "Session not found" http.StatusNotFound /\
   found (closeSession id st).1 = false /\
   (closeSession id st).2 = st) /\
  close_payload =
    [x03; xe8] ++ String.list_byte_of_string "Game closed" /\
  (Byte.to_N x03 * 256 + Byte.to_N xe8)%N
    = Z.to_N websocket.CloseNormalClosure /\
  (id <> "" -> handleClose id st = closeSession id st).
Proof.
  split; [|split; [|split; [done|split; [done|apply handleClose_nonempty]]]].
  - intros conns Hconns. unfold closeSession. rewrite Hconns. simpl.
    destruct (handleClose_range_trace conns st) as (evs & Htr & Hcalls & _).
    exists evs. rewrite handleClose_range_sessions, Htr.
    split; [done|]. split; [done|]. split; [done|].
    split; [apply lookup_delete_eq|]. split; [by rewrite <- app_assoc | done].
  - intros Hnone. unfold closeSession. by rewrite Hnone.
Qed.

(** C4: once a close of the session has succeeded, a join into the same id
    stores a collection holding the joining connection and nothing else. *)
Theorem join_after_closeSession id conn st :
  found (closeSession id st).1 = true ->
  sessions (join id conn (closeSession id st).2) !! id = Some [conn] /\
  forall c, c ∈ index (sessions (join id conn (closeSession id st).2)) id ->
            c = conn.
Proof.
  intros Hfound.
  assert (Hlk : sessions (join id conn (closeSession id st).2) !! id
                = Some [conn]).
  { unfold closeSession in *.
    destruct (sessions st !! id) as [conns|]; [|done]. simpl.
    rewrite lookup_insert_eq. unfold index. simpl.
    by rewrite lookup_delete_eq. }
  split; [done|]. unfold index. rewrite Hlk. simpl.
  by intros c ->%list_elem_of_singleton.
Qed.

End CloseSession.

(** A session of two members, the transport of the second one down. *)
Lemma closeSession_closes_members_witness :
  (exists evs,
     (closeSession "abc" (server [c2] [("abc", [c1; c2])])).1
       = HttpWrite http.StatusOK "Game closed" /\
     found (closeSession "abc" (server [c2] [("abc", [c1; c2])])).1 = true /\
     sessions (closeSession "abc" (server [c2] [("abc", [c1; c2])])).2
       = delete "abc" (sessions (server [c2] [("abc", [c1; c2])])) /\
     sessions (closeSession "abc" (server [c2] [("abc", [c1; c2])])).2 !! "abc"
       = None /\
     trace (closeSession "abc" (server [c2] [("abc", [c1; c2])])).2
       = [] ++ evs ++ [EvLog (LogSessionClosed "abc")] /\
     calls evs = farewell close_payload [c1; c2]) /\
  ((closeSession "xyz" (server [] [("abc", [c1; c2])])).1
     = HttpError "Session not found" http.StatusNotFound /\
   found (closeSession "xyz" (server [] [("abc", [c1; c2])])).1 = false /\
   (closeSession "xyz" (server [] [("abc", [c1; c2])])).2
     = server [] [("abc", [c1; c2])]).
Proof.
  split.
  - apply (proj1 (closeSession_closes_members "abc"
                    (server [c2] [("abc", [c1; c2])])) [c1; c2]).
    reflexivity.
  - apply (proj1 (proj2 (closeSession_closes_members "xyz"
                           (server [] [("abc", [c1; c2])])))).
    reflexivity.
Defined.

Lemma join_after_closeSession_witness :
  found (closeSession "abc" (server [] [("abc", [c1; c2])])).1 = true /\
  sessions (join "abc" c3 (closeSession "abc" (server [] [("abc", [c1; c2])])).2)
    !! "abc" = Some [c3].
Proof.
  split; [reflexivity|].
  apply (join_after_closeSession "abc" c3 (server [] [("abc", [c1; c2])])).
  reflexivity.
Defined.

(** ** The registry the server can reach *)

Section Invariant.
Context {T : Type} `{Transport T}.
Implicit Types (st : Server T) (m : gmap string (list Conn)).

Lemma index_insert_ne id id' conns m :
  id <> id' -> index (<[id := conns]> m) id' = index m id'.
Proof. intros Hne. unfold index. by rewrite lookup_insert_ne. Qed.

Lemma index_delete id id' m :
  index (delete id m) id' `sublist_of` index m id'.
Proof.
  unfold index. destruct (decide (id = id')) as [->|Hne].
  - rewrite lookup_delete_eq. apply sublist_nil_l.
  - by rewrite lookup_delete_ne.
Qed.

Lemma registry_ok_shrink st st' :
  registry_ok st ->
  sessions st' !! "" = None ->
  (forall id, index (sessions st') id `sublist_of` index (sessions st) id) ->
  registry_ok st'.
Proof.
  intros [Hid Hnd Hone] Hid' Hsub. split.
  - done.
  - intros id. eapply sublist_NoDup; [apply Hnd | apply Hsub].
  - intros id1 id2 conn H1 H2.
    apply (Hone id1 id2 conn).
    + by apply (elem_of_sublist _ _ _ H1).
    + by apply (elem_of_sublist _ _ _ H2).
Qed.

Lemma registry_ok_same st st' :
  sessions st' = sessions st -> registry_ok st -> registry_ok st'.
Proof.
  intros Heq Hok. apply (registry_ok_shrink st); [done| |].
  - rewrite Heq. apply Hok.
  - intros id. by rewrite Heq.
Qed.

Lemma join_registry_ok id conn st :
  id <> "" -> ~ registered st conn ->
  registry_ok st -> registry_ok (join id conn st).
Proof.
  intros Hne Hfresh [Hid Hnd Hone].
  assert (Hidx : forall id',
    index (sessions (join id conn st)) id' =
    if decide (id = id') then index (sessions st) id ++ [conn]
    else index (sessions st) id').
  { intros id'. simpl. destruct (decide (id = id')) as [<-|Hne'].
    - apply index_insert.
    - by apply index_insert_ne. }
  assert (Hnew : forall id', conn ∉ index (sessions st) id').
  { intros id' Hin. apply Hfresh. by exists id'. }
  split.
  - simpl. by rewrite lookup_insert_ne.
  - intros id'. rewrite Hidx. destruct (decide (id = id')); [|done].
    apply NoDup_app. split; [done|]. split; [|apply NoDup_singleton].
    intros c Hc ->%list_elem_of_singleton. by apply (Hnew id).
  - intros id1 id2 c. rewrite !Hidx.
    destruct (decide (id = id1)) as [<-|Hn1], (decide (id = id2)) as [<-|Hn2];
      [done| | |by apply Hone].
    + intros [H1| ->%list_elem_of_singleton]%elem_of_app H2;
        [by apply (Hone id id2 c) | by destruct (Hnew id2)].
    + intros H1 [H2| ->%list_elem_of_singleton]%elem_of_app;
        [by apply (Hone id1 id c) | by destruct (Hnew id1)].
Qed.

Lemma removeConnection_registry_ok sessionID conn st st' :
  removeConnection sessionID conn st = Some st' ->
  registry_ok st -> registry_ok st'.
Proof.
  intros Hrm Hok.
  destruct (decide (conn ∈ index (sessions st) sessionID)) as [Hin|Hnot].
  - pose proof Hin as Hin'.
    apply list_elem_of_split_l in Hin' as (front & back & Hidx & Hfront).
    rewrite (removeConnection_present _ _ _ front back) in Hrm by done.
    injection Hrm as <-. apply (registry_ok_shrink st); [done| |].
    + simpl. rewrite lookup_insert_ne; [apply Hok|].
      intros ->. unfold index in Hin. rewrite (ok_id _ Hok) in Hin.
      by apply elem_of_nil in Hin.
    + intros id. simpl. destruct (decide (sessionID = id)) as [<-|Hne].
      * rewrite index_insert, Hidx.
        apply sublist_app; [done|]. by apply sublist_cons.
      * by rewrite index_insert_ne.
  - rewrite removeConnection_absent in Hrm by done. by injection Hrm as <-.
Qed.

Lemma handleClose_registry_ok id st :
  registry_ok st -> registry_ok (handleClose id st).2.
Proof.
  intros Hok. unfold handleClose, closeSession.
  destruct (decide (id = "")); [done|].
  destruct (sessions st !! id) as [conns|]; [|done]. simpl.
  apply (registry_ok_shrink st); [done| |]; simpl;
    rewrite handleClose_range_sessions.
  - rewrite lookup_delete_ne by done. apply Hok.
  - intros id'. apply index_delete.
Qed.

Lemma step_registry_ok st st' :
  step st st' -> registry_ok st -> registry_ok st'.
Proof.
  destruct 1 as [id conn st Hid Hfresh| | | | |].
  - by apply join_registry_ok.
  - by apply registry_ok_same.
  - apply registry_ok_same. apply broadcast_range_sessions.
  - by apply registry_ok_same.
  - by eapply removeConnection_registry_ok.
  - apply handleClose_registry_ok.
Qed.

(** Every registry the server reaches from the empty one has no entry for
    the empty id and holds each connection at most once. *)
Lemma reachable_registry_ok st : reachable st -> registry_ok st.
Proof.
  intros (st0 & Hempty & Hsteps). revert st Hsteps. apply rtc_ind_r.
  - split.
    + by rewrite Hempty.
    + intros id. unfold index. rewrite Hempty, lookup_empty. apply NoDup_nil_2.
    + intros id1 id2 conn. unfold index.
      rewrite Hempty, lookup_empty. by intros ?%elem_of_nil.
  - intros st1 st2 _ Hstep Hok. by apply (step_registry_ok st1).
Qed.

Lemma reachable_occurrences st id conn :
  reachable st -> occurrences conn (index (sessions st) id) <= 1.
Proof.
  intros Hok%reachable_registry_ok.
  destruct (decide (conn ∈ index (sessions st) id)) as [Hin|Hnot].
  - rewrite occurrences_NoDup; [done|apply Hok|done].
  - apply occurrences_absent in Hnot. lia.
Qed.

End Invariant.

(** ** The lifecycle of a connection *)

Section Driver.
Context {T : Type} `{Transport T}.
Implicit Types (st : Server T) (reads : list ReadResult).

(** The receive loop never panics: it is blocked on a read or has returned. *)
Lemma handleMessages_total reads conn sessionID st :
  is_Some (handleMessages reads conn sessionID st).
Proof.
  revert st. induction reads as [|[messageType msg|] reads IH]; intros st; simpl.
  - done.
  - apply IH.
  - unfold handleMessages_deferred.
    by destruct (removeConnection_total sessionID conn
                   (Close conn (log_Println LogReadError st))) as [st' ->].
Qed.

(** Its run is a sequence of steps of the system. *)
Lemma handleMessages_steps reads conn sessionID st d st' :
  handleMessages reads conn sessionID st = Some (d, st') -> rtc step st st'.
Proof.
  revert st. induction reads as [|[messageType msg|] reads IH]; intros st; simpl.
  - by intros [= _ <-].
  - intros Hrun. eapply rtc_l; [apply (step_log (LogMessage sessionID msg))|].
    eapply rtc_l; [apply (step_broadcast sessionID msg)|]. by apply IH.
  - unfold handleMessages_deferred.
    destruct (removeConnection _ _ _) as [st1|] eqn:Hrm; [|done].
    intros [= _ <-]. eapply rtc_l; [apply (step_log LogReadError)|].
    eapply rtc_l; [apply (step_Close conn)|].
    by apply rtc_once, (step_remove sessionID conn).
Qed.

(** When the read fails the connection is closed and then leaves: it is in
    the collection of its session one time less than before. *)
Lemma handleMessages_terminating conn sessionID reads st :
  exists st',
    handleMessages (ReadErr :: reads) conn sessionID st = Some (Returned, st') /\
    trace st' = trace st ++ [EvLog LogReadError; EvClose conn] /\
    occurrences conn (index (sessions st') sessionID) =
      pred (occurrences conn (index (sessions st) sessionID)).
Proof.
  simpl. unfold handleMessages_deferred.
  set (st1 := Close conn (log_Println LogReadError st)).
  assert (Hsess : sessions st1 = sessions st) by done.
  assert (Htr : trace st1 = trace st ++ [EvLog LogReadError; EvClose conn])
    by (simpl; by rewrite <- app_assoc).
  destruct (decide (conn ∈ index (sessions st1) sessionID)) as [Hin|Hnot].
  - apply list_elem_of_split_l in Hin as (front & back & Hidx & Hfront).
    rewrite (removeConnection_present _ _ _ front back) by done.
    eexists. split; [done|]. split; [done|]. simpl.
    rewrite index_insert, <- Hsess, Hidx, !occurrences_app, occurrences_cons.
    rewrite decide_True by done. lia.
  - rewrite removeConnection_absent by done.
    eexists. split; [done|]. split; [done|]. rewrite Hsess in *.
    apply occurrences_absent in Hnot. by rewrite Hnot.
Qed.

Lemma handleHost_steps id upgrade reads st r d st' :
  (forall conn, upgrade = Some conn -> ~ registered st conn) ->
  handleHost id upgrade reads st = Some (r, d, st') -> rtc step st st'.
Proof.
  intros Hfresh. unfold handleHost.
  destruct (decide (id = "")) as [|Hid]; [by intros [= _ _ <-]|].
  destruct upgrade as [conn|].
  - destruct (handleMessages _ _ _ _) as [[d1 st1]|] eqn:Hrun; [|done].
    intros [= _ _ <-]. eapply rtc_l; [apply (step_join id conn); auto|].
    eapply rtc_l; [apply (step_log (LogHostConnected id))|].
    by eapply handleMessages_steps.
  - intros [= _ _ <-]. apply rtc_once, step_log.
Qed.

Lemma handleJoin_steps id upgrade reads st r d st' :
  (forall conn, upgrade = Some conn -> ~ registered st conn) ->
  handleJoin id upgrade reads st = Some (r, d, st') -> rtc step st st'.
Proof.
  intros Hfresh. unfold handleJoin.
  destruct (decide (id = "")) as [|Hid]; [by intros [= _ _ <-]|].
  destruct upgrade as [conn|].
  - destruct (handleMessages _ _ _ _) as [[d1 st1]|] eqn:Hrun; [|done].
    intros [= _ _ <-]. eapply rtc_l; [apply (step_join id conn); auto|].
    eapply rtc_l; [apply (step_log (LogPlayerJoined id))|].
    by eapply handleMessages_steps.
  - intros [= _ _ <-]. apply rtc_once, step_log.
Qed.

End Driver.

(** ** Whole runs of the receive loop *)


Section Runs.
Context {T : Type} `{Transport T}.
Implicit Types (st : Server T) (msgs : list (Z * list byte)).

Lemma set_sessions_same st : set_sessions (sessions st) st = st.
Proof. by destruct st. Qed.

(** [removeConnection] looks at the map and at nothing else. *)
Lemma removeConnection_on_sessions sessionID conn st st' st2 :
  sessions st2 = sessions st ->
  removeConnection sessionID conn st = Some st' ->
  removeConnection sessionID conn st2 = Some (set_sessions (sessions st') st2).
Proof.
  intros Heq Hrm.
  destruct (decide (conn ∈ index (sessions st) sessionID)) as [Hin|Hnot].
  - apply list_elem_of_split_l in Hin as (front & back & Hidx & Hfront).
    rewrite (removeConnection_present _ _ _ front back) in Hrm by done.
    injection Hrm as <-.
    rewrite (removeConnection_present _ _ _ front back)
      by (rewrite ?Heq; done).
    simpl. by rewrite Heq.
  - rewrite removeConnection_absent in Hrm by done. injection Hrm as <-.
    rewrite removeConnection_absent by (by rewrite Heq).
    by rewrite <- Heq, set_sessions_same.
Qed.

Lemma handleMessages_recv_sessions sessionID msg st :
  sessions (handleMessages_recv sessionID msg st) = sessions st.
Proof.
  unfold handleMessages_recv, broadcastMessage.
  by rewrite broadcast_range_sessions.
Qed.

Lemma handleMessages_recv_trace sessionID msg st :
  exists evs,
    trace (handleMessages_recv sessionID msg st) = trace st ++ evs /\
    calls evs = relay msg (index (sessions st) sessionID).
Proof.
  unfold handleMessages_recv, broadcastMessage.
  match goal with |- context [broadcast_range ?l msg ?s] =>
    destruct (broadcast_range_trace l msg s) as (evs & Htr & Hcalls) end.
  exists (EvLog (LogMessage sessionID msg) :: evs). split.
  - rewrite Htr. simpl. by rewrite <- app_assoc.
  - done.
Qed.

(** The loop over the reads that succeed: the registry stays as it is and
    each message is relayed to the members, message after message. *)
Lemma handleMessages_received sessionID msgs st :
  exists st' evs,
    (forall conn reads,
       handleMessages (received msgs ++ reads) conn sessionID st =
       handleMessages reads conn sessionID st') /\
    sessions st' = sessions st /\
    trace st' = trace st ++ evs /\
    calls evs = relays msgs (index (sessions st) sessionID).
Proof.
  revert st. induction msgs as [|[mt msg] msgs IH]; intros st.
  - exists st, []. by rewrite app_nil_r.
  - destruct (IH (handleMessages_recv sessionID msg st))
      as (st' & evs & Hrun & Hsess & Htr & Hcalls).
    destruct (handleMessages_recv_trace sessionID msg st) as (evs0 & Htr0 & Hc0).
    rewrite handleMessages_recv_sessions in Hsess, Hcalls.
    exists st', (evs0 ++ evs). split; [|split; [done|split]].
    + intros conn reads. simpl. apply Hrun.
    + rewrite Htr, Htr0. by rewrite <- app_assoc.
    + rewrite calls_app, Hc0, Hcalls. done.
Qed.

(** The loop up to and including its first failed read. *)
Lemma handleMessages_until_error conn sessionID msgs rest st :
  exists st' evs,
    handleMessages (received msgs ++ ReadErr :: rest) conn sessionID st
      = Some (Returned, st') /\
    trace st' = trace st ++ evs /\
    calls evs = relays msgs (index (sessions st) sessionID) ++ [CallClose conn] /\
    sessions <$> removeConnection sessionID conn st = Some (sessions st').
Proof.
  destruct (handleMessages_received sessionID msgs st)
    as (st1 & evs & Hrun & Hsess & Htr & Hcalls).
  rewrite Hrun. simpl.
  unfold handleMessages_deferred.
  destruct (removeConnection_total sessionID conn st) as [str Hstr].
  set (stc := Close conn (log_Println LogReadError st1)).
  rewrite (removeConnection_on_sessions sessionID conn st str stc)
    by (done || by rewrite <- Hsess).
  eexists _, (evs ++ [EvLog LogReadError; EvClose conn]).
  split; [done|]. simpl. split; [|split].
  - rewrite Htr. by rewrite <- !app_assoc.
  - by rewrite calls_app, Hcalls.
  - by rewrite Hstr.
Qed.


(** X2: as long as its reads succeed the receive loop stays in the loop:
    it relays each message to the members in the order read, closes no
    connection and leaves the registry as it found it. *)
Theorem handleMessages_blocked conn sessionID msgs st :
  exists st' evs,
    handleMessages (received msgs) conn sessionID st = Some (Blocked, st') /\
    sessions st' = sessions st /\
    trace st' = trace st ++ evs /\
    calls evs = relays msgs (index (sessions st) sessionID) /\
    forall c, CallClose c ∉ calls evs.
Proof.
  destruct (handleMessages_received sessionID msgs st)
    as (st' & evs & Hrun & Hsess & Htr & Hcalls).
  exists st', evs. specialize (Hrun conn []). rewrite app_nil_r in Hrun.
  split; [by rewrite Hrun|]. split; [done|]. split; [done|]. split; [done|].
  intros c. rewrite Hcalls. unfold relays, relay.
  rewrite list_elem_of_In, List.in_flat_map.
  intros (m & _ & (c' & Heq & _)%list_elem_of_In%list_elem_of_fmap).
  discriminate.
Qed.

End Runs.

(** ** The two ways into a session *)

Section Lifecycle.
Context {T : Type} `{Transport T}.
Implicit Types (st : Server T) (msgs : list (Z * list byte)).

(** The server writes its trace and never reads it: a run from a state
    with more events behind it is the same run, with those events behind. *)
Lemma broadcast_range_prepend pre conns message st :
  broadcast_range conns message (prepend pre st) =
  prepend pre (broadcast_range conns message st).
Proof.
  revert st. induction conns as [|c conns IH]; intros st; [done|].
  cbn [broadcast_range]. rewrite <- IH. f_equal.
  unfold WriteMessage, log_Println, emit, prepend. simpl.
  destruct (Conn_WriteMessage c websocket.TextMessage message (wire st)).1;
    simpl; by rewrite <- !app_assoc.
Qed.

Lemma removeConnection_prepend pre sessionID conn st :
  removeConnection sessionID conn (prepend pre st) =
  prepend pre <$> removeConnection sessionID conn st.
Proof.
  destruct (removeConnection_total sessionID conn st) as [st' Hst'].
  rewrite (removeConnection_on_sessions sessionID conn st st' (prepend pre st))
    by done.
  pose proof (removeConnection_on_sessions sessionID conn st st' st eq_refl Hst')
    as Hself.
  rewrite Hst' in Hself. injection Hself as Hself.
  rewrite Hst'. simpl. f_equal. rewrite Hself at 2. done.
Qed.

Lemma handleMessages_prepend pre reads conn sessionID st :
  handleMessages reads conn sessionID (prepend pre st) =
  (fun r => (r.1, prepend pre r.2)) <$> handleMessages reads conn sessionID st.
Proof.
  revert st. induction reads as [|[mt msg|] reads IH]; intros st; simpl.
  - done.
  - rewrite <- IH. f_equal.
    unfold handleMessages_recv, broadcastMessage.
    rewrite <- broadcast_range_prepend. f_equal.
    unfold log_Println, emit, prepend. simpl. by rewrite <- app_assoc.
  - unfold handleMessages_deferred.
    replace (Close conn (log_Println LogReadError (prepend pre st)))
      with (prepend pre (Close conn (log_Println LogReadError st)))
      by (unfold Close, log_Println, emit, prepend; simpl;
          by rewrite <- !app_assoc).
    rewrite removeConnection_prepend.
    by destruct (removeConnection sessionID conn _).
Qed.


(** X4: [handleJoin] is [handleHost] but for the line it logs: on the same
    request, reads and state the two give the same response, leave the loop
    at the same place, the same registry and transport, and have made the
    same calls on the same connections. *)
Theorem handleJoin_as_handleHost id upgrade reads st :
  observe <$> handleJoin id upgrade reads st =
  observe <$> handleHost id upgrade reads st.
Proof.
  unfold handleJoin, handleHost.
  destruct (decide (id = "")); [done|]. destruct upgrade as [conn|].
  - set (base := mkServer (sessions (join id conn st)) (wire st) []).
    assert (Hlog : forall line,
      log_Println line (join id conn st) = prepend (trace st ++ [EvLog line]) base)
      by (intros line; unfold log_Println, emit, prepend; simpl;
          by rewrite app_nil_r).
    rewrite !Hlog, !handleMessages_prepend.
    destruct (handleMessages reads conn id base) as [[d st']|]; [|done].
    simpl. unfold observe. simpl. by rewrite !calls_app.
  - simpl. unfold observe. simpl. by rewrite !calls_app.
Qed.

End Lifecycle.


(** ** Sessions do not leak into each other *)

Lemma relay_target (message : list byte) (conns : list Conn) (call : Call) :
  call ∈ relay message conns -> target call ∈ conns.
Proof. unfold relay. by intros (c & -> & Hc)%list_elem_of_fmap. Qed.



Lemma two_sessions_reachable : reachable two_sessions.
Proof.
  exists (Flaky.server [] []). split; [done|].
  eapply rtc_l; [apply (step_join "a" Flaky.c1); [done|]|].
  - intros [id Hin]. by apply elem_of_nil in Hin.
  - apply rtc_once. apply (step_join "b" Flaky.c2); [done|].
    intros [id Hin]. simpl in Hin.
    destruct (decide ("a" = id)) as [<-|Hne].
    + rewrite index_insert in Hin.
      apply list_elem_of_singleton in Hin. discriminate.
    + rewrite index_insert_ne in Hin by done. by apply elem_of_nil in Hin.
Qed.

Section Isolation.
Context {T : Type} `{Transport T}.
Implicit Types (st : Server T).

(** X6: in every state the server reaches from the empty registry, when
    each upgrade gives a connection the registry does not hold, there is no
    session under the empty id, no connection is twice in a collection, and
    no connection is in the collections of two sessions. *)
Theorem reachable_invariant st :
  reachable st ->
  sessions st !! "" = None /\
  (forall id, NoDup (index (sessions st) id)) /\
  (forall id1 id2 conn,
     conn ∈ index (sessions st) id1 ->
     conn ∈ index (sessions st) id2 -> id1 = id2).
Proof. intros [Hid Hnd Hone]%reachable_registry_ok. auto. Qed.

(** X5: a broadcast to one session makes no call on a connection that is a
    member of another session. *)
Theorem broadcastMessage_stays_in_session st id id' conn message :
  reachable st ->
  conn ∈ index (sessions st) id' ->
  id <> id' ->
  exists evs,
    trace (broadcastMessage id message st) = trace st ++ evs /\
    forall call, call ∈ calls evs -> target call <> conn.
Proof.
  intros Hok%reachable_registry_ok Hin Hne. unfold broadcastMessage.
  destruct (broadcast_range_trace (index (sessions st) id) message st)
    as (evs & Htr & Hcalls).
  exists evs. split; [done|]. intros call. rewrite Hcalls.
  intros Hcall%relay_target Heq. rewrite Heq in Hcall. apply Hne.
  by apply (ok_one_session _ Hok id id' conn).
Qed.


End Isolation.

Lemma reachable_invariant_witness :
  reachable two_sessions /\
  sessions two_sessions !! "" = None /\
  (forall id, NoDup (index (sessions two_sessions) id)) /\
  (forall id1 id2 conn,
     conn ∈ index (sessions two_sessions) id1 ->
     conn ∈ index (sessions two_sessions) id2 -> id1 = id2).
Proof.
  split; [exact two_sessions_reachable|].
  exact (reachable_invariant two_sessions two_sessions_reachable).
Defined.

Lemma broadcastMessage_stays_in_session_witness :
  reachable two_sessions /\
  c2 ∈ index (sessions two_sessions) "b" /\
  "a" <> "b" /\
  exists evs,
    trace (broadcastMessage "a" ping two_sessions) = trace two_sessions ++ evs /\
    forall call, call ∈ calls evs -> target call <> c2.
Proof.
  assert (Hin : c2 ∈ index (sessions two_sessions) "b")
    by apply list_elem_of_here.
  assert (Hne : "a" <> "b") by discriminate.
  split; [exact two_sessions_reachable|]. split; [exact Hin|].
  split; [exact Hne|].
  exact (broadcastMessage_stays_in_session two_sessions "a" "b" c2 ping
           two_sessions_reachable Hin Hne).
Defined.


(** ** How the operations compose *)

Lemma occurrences_middle (c conn : Conn) (front back : list Conn) :
  c <> conn ->
  occurrences c (front ++ conn :: back) = occurrences c (front ++ back).
Proof.
  intros Hne. rewrite !occurrences_app, occurrences_cons.
  by rewrite decide_False by congruence.
Qed.

Lemma times_Permutation (call : Call) (evs evs' : list Event) :
  calls evs ≡ₚ calls evs' -> times call evs = times call evs'.
Proof. unfold times. by intros ->. Qed.

Section Composition.
Context {T : Type} `{Transport T}.
Implicit Types (st : Server T) (msgs : list (Z * list byte)).

Lemma joins_frame id cs st :
  (forall id', id' <> id -> sessions (joins id cs st) !! id' = sessions st !! id')
  /\ wire (joins id cs st) = wire st /\ trace (joins id cs st) = trace st.
Proof.
  unfold joins. revert st. induction cs as [|c cs IH]; intros st; [done|].
  simpl. destruct (IH (join id c st)) as (Hother & Hwire & Htrace).
  split; [|by rewrite Hwire, Htrace].
  intros id' Hne. rewrite Hother by done. simpl. by apply lookup_insert_ne.
Qed.

Lemma broadcast_range_events conns message st :
  exists outcomes,
    map fst outcomes = conns /\
    trace (broadcast_range conns message st) =
      trace st ++ broadcast_events message outcomes.
Proof.
  revert st. induction conns as [|c conns IH]; intros st.
  - exists []. split; [done|]. simpl. by rewrite app_nil_r.
  - cbn [broadcast_range].
    match goal with |- context [broadcast_range conns message ?s] =>
      destruct (IH s) as (outcomes & Hfst & ->) end.
    exists ((c, (Conn_WriteMessage c websocket.TextMessage message (wire st)).1)
              :: outcomes).
    split; [simpl; by rewrite Hfst|].
    unfold broadcast_events. simpl.
    destruct (Conn_WriteMessage c websocket.TextMessage message (wire st)).1;
      simpl; by rewrite <- !app_assoc.
Qed.





(** X10: when the last member has left, the session is still there: a
    broadcast to it does nothing, and closing it answers with success, as
    for a session with members, though no connection is written to or
    closed. *)
Theorem closeSession_after_last_leave id conn message st :
  sessions st !! id = Some [conn] ->
  exists st1,
    removeConnection id conn st = Some st1 /\
    broadcastMessage id message st1 = st1 /\
    found (closeSession id st1).1 = true /\
    trace (closeSession id st1).2 = trace st ++ [EvLog (LogSessionClosed id)] /\
    sessions (closeSession id st1).2 = delete id (sessions st).
Proof.
  intros Hconns.
  assert (Hidx : index (sessions st) id = [] ++ conn :: [])
    by (unfold index; by rewrite Hconns).
  rewrite (removeConnection_present id conn st [] []) by (done || apply not_elem_of_nil).
  eexists. split; [done|].
  unfold broadcastMessage, closeSession, index. simpl.
  rewrite lookup_insert_eq. simpl. split; [done|]. split; [done|].
  split; [done|]. by rewrite delete_insert_eq.
Qed.

(** X11: joins into a session append to what the session holds, in the
    order of the joins, whether or not it had an entry; they leave every
    other session, the transport and the log alone. *)
Theorem joins_append id cs st :
  index (sessions (joins id cs st)) id = index (sessions st) id ++ cs /\
  (forall id', id' <> id -> sessions (joins id cs st) !! id' = sessions st !! id')
  /\ wire (joins id cs st) = wire st /\ trace (joins id cs st) = trace st.
Proof. split; [apply joins_index | apply joins_frame]. Qed.

(** X12: the events of a broadcast are, member after member in the order
    of the collection, the write to the member and, when and only when that
    write failed, one line logging a write error. *)
Theorem broadcastMessage_events sessionID message st :
  exists outcomes,
    map fst outcomes = index (sessions st) sessionID /\
    trace (broadcastMessage sessionID message st) =
      trace st ++ broadcast_events message outcomes.
Proof. apply broadcast_range_events. Qed.

(** X13: the order in which the same connections join a session changes
    the order of its collection and nothing else: a broadcast makes each
    call the same number of times. *)
Theorem joins_any_order id cs cs' message st :
  cs ≡ₚ cs' ->
  index (sessions (joins id cs st)) id ≡ₚ index (sessions (joins id cs' st)) id
  /\ exists evs evs',
      trace (broadcastMessage id message (joins id cs st)) = trace st ++ evs /\
      trace (broadcastMessage id message (joins id cs' st)) = trace st ++ evs' /\
      forall call, times call evs = times call evs'.
Proof.
  intros Hperm. rewrite !joins_index. split; [by rewrite Hperm|].
  unfold broadcastMessage. rewrite !joins_index.
  destruct (broadcast_range_trace (index (sessions st) id ++ cs) message
              (joins id cs st)) as (evs & Htr & Hcalls).
  destruct (broadcast_range_trace (index (sessions st) id ++ cs') message
              (joins id cs' st)) as (evs' & Htr' & Hcalls').
  destruct (joins_frame id cs st) as (_ & _ & Ht).
  destruct (joins_frame id cs' st) as (_ & _ & Ht').
  exists evs, evs'. rewrite Htr, Htr', Ht, Ht'. split; [done|]. split; [done|].
  intros call. apply times_Permutation. rewrite Hcalls, Hcalls'.
  unfold relay. by rewrite Hperm.
Qed.

(** X14: once a connection that the session held at most once has been
    removed, a broadcast to the session makes no call on it, and writes to
    every other member as many times as the collection held it. *)
Theorem broadcastMessage_after_removeConnection id conn message st st1 :
  occurrences conn (index (sessions st) id) <= 1 ->
  removeConnection id conn st = Some st1 ->
  exists evs,
    trace (broadcastMessage id message st1) = trace st1 ++ evs /\
    (forall call, call ∈ calls evs -> target call <> conn) /\
    (forall c, c <> conn ->
       times (CallWrite c websocket.TextMessage message) evs =
       occurrences c (index (sessions st) id)).
Proof.
  intros Hocc Hrm. unfold broadcastMessage.
  destruct (broadcast_range_trace (index (sessions st1) id) message st1)
    as (evs & Htr & Hcalls).
  exists evs. split; [done|].
  assert (Hafter : (conn ∉ index (sessions st1) id) /\
                   forall c, c <> conn ->
                     occurrences c (index (sessions st1) id) =
                     occurrences c (index (sessions st) id)).
  { destruct (decide (conn ∈ index (sessions st) id)) as [Hin|Hnot].
    - apply list_elem_of_split_l in Hin as (front & back & Hidx & Hfront).
      rewrite (removeConnection_present _ _ _ front back) in Hrm by done.
      injection Hrm as <-. simpl. rewrite index_insert, Hidx.
      rewrite Hidx, occurrences_app, occurrences_cons, decide_True in Hocc
        by done.
      split.
      + rewrite not_elem_of_app. split; [done|].
        apply occurrences_absent. lia.
      + intros c Hne. by rewrite occurrences_middle.
    - rewrite removeConnection_absent in Hrm by done.
      by injection Hrm as <-. }
  destruct Hafter as [Hgone Hsame]. split.
  - intros call. rewrite Hcalls. intros Hcall%relay_target Heq.
    by rewrite Heq in Hcall.
  - intros c Hne. rewrite (times_relay _ _ _ _ Hcalls). by apply Hsame.
Qed.

End Composition.


Lemma closeSession_after_last_leave_witness :
  sessions (server [] [("abc", [c1])]) !! "abc" = Some [c1] /\
  exists st1,
    removeConnection "abc" c1 (server [] [("abc", [c1])]) = Some st1 /\
    broadcastMessage "abc" ping st1 = st1 /\
    found (closeSession "abc" st1).1 = true /\
    trace (closeSession "abc" st1).2 =
      trace (server [] [("abc", [c1])]) ++ [EvLog (LogSessionClosed "abc")] /\
    sessions (closeSession "abc" st1).2 =
      delete "abc" (sessions (server [] [("abc", [c1])])).
Proof.
  split; [reflexivity|].
  apply (closeSession_after_last_leave "abc" c1 ping (server [] [("abc", [c1])])).
  reflexivity.
Defined.

Lemma joins_any_order_witness :
  [c1; c2] ≡ₚ [c2; c1] /\
  exists evs evs',
    trace (broadcastMessage "abc" ping (joins "abc" [c1; c2] (server [c2] [])))
      = trace (server [c2] []) ++ evs /\
    trace (broadcastMessage "abc" ping (joins "abc" [c2; c1] (server [c2] [])))
      = trace (server [c2] []) ++ evs' /\
    forall call, times call evs = times call evs'.
Proof.
  assert (Hperm : [c1; c2] ≡ₚ [c2; c1]) by apply Permutation_swap.
  split; [exact Hperm|].
  exact (proj2 (joins_any_order "abc" [c1; c2] [c2; c1] ping (server [c2] [])
                  Hperm)).
Defined.

Lemma broadcastMessage_after_removeConnection_witness :
  occurrences c2 (index (sessions (server [] [("abc", [c1; c2; c3])])) "abc")
    <= 1 /\
  exists st1 evs,
    removeConnection "abc" c2 (server [] [("abc", [c1; c2; c3])]) = Some st1 /\
    trace (broadcastMessage "abc" ping st1) = trace st1 ++ evs /\
    (forall call, call ∈ calls evs -> target call <> c2) /\
    (forall c, c <> c2 ->
       times (CallWrite c websocket.TextMessage ping) evs =
       occurrences c (index (sessions (server [] [("abc", [c1; c2; c3])])) "abc")).
Proof.
  assert (Hocc : occurrences c2
            (index (sessions (server [] [("abc", [c1; c2; c3])])) "abc") <= 1)
    by (vm_compute; lia).
  split; [exact Hocc|].
  exists (server [] [("abc", [c1; c3])]).
  destruct (broadcastMessage_after_removeConnection "abc" c2 ping
              (server [] [("abc", [c1; c2; c3])])
              (server [] [("abc", [c1; c3])]) Hocc eq_refl) as (evs & Hevs).
  by exists evs.
Defined.

(** ** What a connection's loop can and cannot do to the registry *)

Lemma reads_split (reads : list ReadResult) :
  exists msgs,
    reads = received msgs \/ exists rest, reads = received msgs ++ ReadErr :: rest.
Proof.
  induction reads as [|r reads IH]; [exists []; by left|].
  destruct r as [mt msg|].
  - destruct IH as (msgs & [->|(rest & ->)]); exists ((mt, msg) :: msgs);
      [by left | right; by exists rest].
  - exists []. right. by exists reads.
Qed.

Section OwnConnection.
Context {T : Type} `{Transport T}.
Implicit Types (st : Server T) (msgs : list (Z * list byte)).

Lemma removeConnection_others sessionID conn st st' :
  removeConnection sessionID conn st = Some st' ->
  (forall id, id <> sessionID -> sessions st' !! id = sessions st !! id) /\
  (forall c, c <> conn ->
     occurrences c (index (sessions st') sessionID) =
     occurrences c (index (sessions st) sessionID)).
Proof.
  intros Hrm.
  destruct (decide (conn ∈ index (sessions st) sessionID)) as [Hin|Hnot].
  - apply list_elem_of_split_l in Hin as (front & back & Hidx & Hfront).
    rewrite (removeConnection_present _ _ _ front back) in Hrm by done.
    injection Hrm as <-. simpl. split.
    + intros id Hne. by apply lookup_insert_ne.
    + intros c Hne. by rewrite index_insert, Hidx, occurrences_middle.
  - rewrite removeConnection_absent in Hrm by done. by injection Hrm as <-.
Qed.


(** X16: whatever it reads, the receive loop of a connection does not
    panic, leaves the entries of all other sessions as they were, and
    leaves every other connection in its own session as many times as it
    was there. *)
Theorem handleMessages_only_own_connection reads conn sessionID st :
  exists d st',
    handleMessages reads conn sessionID st = Some (d, st') /\
    (forall id, id <> sessionID -> sessions st' !! id = sessions st !! id) /\
    (forall c, c <> conn ->
       occurrences c (index (sessions st') sessionID) =
       occurrences c (index (sessions st) sessionID)).
Proof.
  destruct (reads_split reads) as (msgs & [->|(rest & ->)]).
  - destruct (handleMessages_received sessionID msgs st)
      as (st' & evs & Hrun & Hsess & _).
    specialize (Hrun conn []). rewrite app_nil_r in Hrun.
    exists Blocked, st'. by rewrite Hrun, Hsess.
  - destruct (handleMessages_until_error conn sessionID msgs rest st)
      as (st' & evs & Hrun & _ & _ & Hsess).
    exists Returned, st'. split; [done|].
    destruct (removeConnection sessionID conn st) as [st1|] eqn:Hrm; [|done].
    injection Hsess as Hsess. rewrite <- Hsess.
    by apply (removeConnection_others sessionID conn st st1).
Qed.

End OwnConnection.

